(** * quirky-thoughts: the articles service (main.go)

    A shallow embedding of the three layers of main.go -- the in-memory
    repository, the article service and the HTTP transport -- together with
    the properties of the layered CRUD pipeline.

    Conventions of the embedding:
    - a Go [error] result is an [option error]; [None] is Go's [nil];
    - a Go [*Article] result is an [option Article]; [None] is the nil pointer;
    - a method with a pointer receiver is a function that takes the receiver's
      state and returns the result together with the new state;
    - the unused [context.Context] arguments are dropped. *)

From stdpp Require Import gmap strings list fin_maps.

Local Open Scope string_scope.

(** ** Errors, timestamps and the Article entity *)

Module errors.
(** [errors.New(text)] and the [Error()] method of the value it returns. *)
Record error : Type := New { Error : string }.

#[global] Instance error_eq_dec : EqDecision error.
Proof. solve_decision. Defined.
End errors.

Abbreviation error := errors.error.

(** [var ErrArticleNotFound = errors.New("article not found")] *)
Definition ErrArticleNotFound : error := errors.New "article not found".

Module time.
(** [time.Time] is a struct of a wall-clock word, a monotonic extension and
    a location pointer; its zero value has all three zero. *)
Record Time : Type := mkTime { wall : Z; ext : Z; loc : option string }.

Definition zero : Time := {| wall := 0; ext := 0; loc := None |}.

#[global] Instance Time_eq_dec : EqDecision Time.
Proof. solve_decision. Defined.
End time.

(** [type Article struct].  [Tags] is a slice: [None] is the nil slice and
    [Some l] a slice holding the elements [l] in order. *)
Record Article : Type := mkArticle {
  ID        : string;
  Title     : string;
  Tags      : option (list string);
  Content   : string;
  PublishAt : time.Time
}.

#[global] Instance Article_eq_dec : EqDecision Article.
Proof. solve_decision. Defined.

(** The value of [var article Article]. *)
Definition zeroArticle : Article :=
  {| ID := ""; Title := ""; Tags := None; Content := ""; PublishAt := time.zero |}.

(** The assignment [article.ID = id]. *)
Definition setID (id : string) (a : Article) : Article :=
  {| ID := id; Title := Title a; Tags := Tags a; Content := Content a;
     PublishAt := PublishAt a |}.

(** ** The repository interface and the in-memory repository *)

Module ArticlesRepo.
(** [type ArticlesRepo interface], over the state [R] of an implementation. *)
Class t (R : Type) : Type := {
  InsertArticle : Article → R → option error * R;
  UpdateArticle : Article → R → option error * R;
  DeleteArticle : string → R → option error * R;
  ArticleByID   : string → R → (option Article * option error) * R;
  AllArticles   : R → (list Article * option error) * R
}.
End ArticlesRepo.

Module inMemoryRepo.
(** [type inMemoryRepo struct { articles map[string]Article }] *)
Record t : Type := mk { articles : gmap string Article }.

(** [newInMemoryRepo] *)
Definition new : t := {| articles := ∅ |}.

Definition InsertArticle (article : Article) (repo : t) : option error * t :=
  (None, {| articles := <[ID article := article]> (articles repo) |}).

Definition UpdateArticle (article : Article) (repo : t) : option error * t :=
  match articles repo !! ID article with
  | None => (Some ErrArticleNotFound, repo)
  | Some _ =>
      (None, {| articles := <[ID article := article]> (articles repo) |})
  end.

Definition DeleteArticle (id : string) (repo : t) : option error * t :=
  (None, {| articles := delete id (articles repo) |}).

Definition ArticleByID (id : string) (repo : t)
  : (option Article * option error) * t :=
  match articles repo !! id with
  | None => ((None, Some ErrArticleNotFound), repo)
  | Some article => ((Some article, None), repo)
  end.

Section Range.
(** Go visits the entries of a map in an unspecified order.  [mapRange]
    is the order in which [for _, article := range repo.articles] meets
    them; all that is known of it is [mapRange_visits_each_once]. *)
Variable mapRange : gmap string Article → list (string * Article).

Definition mapRange_visits_each_once : Prop :=
  ∀ m, mapRange m ≡ₚ map_to_list m.

Definition AllArticles (repo : t) : (list Article * option error) * t :=
  (foldl (λ articles kv, (articles ++ [kv.2])%list) []
     (mapRange (articles repo)),
   None,
   repo).

#[export] Instance repo : ArticlesRepo.t t := {|
  ArticlesRepo.InsertArticle := InsertArticle;
  ArticlesRepo.UpdateArticle := UpdateArticle;
  ArticlesRepo.DeleteArticle := DeleteArticle;
  ArticlesRepo.ArticleByID := ArticleByID;
  ArticlesRepo.AllArticles := AllArticles
|}.
End Range.
End inMemoryRepo.

(** ** The service interface and the article service *)

Module ArticlesService.
(** [type ArticlesService interface], over the state [S] of an
    implementation. *)
Class t (S : Type) : Type := {
  AddArticle    : Article → S → option error * S;
  UpdateArticle : Article → S → option error * S;
  DeleteArticle : string → S → option error * S;
  Articles      : S → (list Article * option error) * S;
  Article       : string → S → (option Article * option error) * S
}.
End ArticlesService.

Module articleSvc.
Section Svc.
(** [type articleSvc struct { repo ArticlesRepo }]: the service has no
    state of its own, its state is the state of the repository it holds. *)
Context {R : Type} `{!ArticlesRepo.t R}.

Definition AddArticle (article : Article) (svc : R) : option error * R :=
  let '((a, err), svc) := ArticlesRepo.ArticleByID (ID article) svc in
  match err, a with
  | None, Some _ => (Some (errors.New "article already exists"), svc)
  | _, _ => ArticlesRepo.InsertArticle article svc
  end.

Definition UpdateArticle (article : Article) (svc : R) : option error * R :=
  ArticlesRepo.UpdateArticle article svc.

Definition DeleteArticle (id : string) (svc : R) : option error * R :=
  ArticlesRepo.DeleteArticle id svc.

Definition Articles (svc : R) : (list Article * option error) * R :=
  ArticlesRepo.AllArticles svc.

Definition Article (id : string) (svc : R)
  : (option Article * option error) * R :=
  ArticlesRepo.ArticleByID id svc.

#[export] Instance svc : ArticlesService.t R := {|
  ArticlesService.AddArticle := AddArticle;
  ArticlesService.UpdateArticle := UpdateArticle;
  ArticlesService.DeleteArticle := DeleteArticle;
  ArticlesService.Articles := Articles;
  ArticlesService.Article := Article
|}.
End Svc.
End articleSvc.

(** ** Recording implementations of the two interfaces

    Both interfaces can be implemented by a wrapper that forwards every call
    and appends it to a list.  Running a layer on top of such a wrapper shows
    which calls the layer makes, with which arguments and in which order. *)

Module recordingRepo.
Inductive call : Type :=
| InsertArticle (article : Article)
| UpdateArticle (article : Article)
| DeleteArticle (id : string)
| ArticleByID (id : string)
| AllArticles.

Record t (R : Type) : Type := mk { inner : R; calls : list call }.
Arguments mk {R} _ _.
Arguments inner {R} _.
Arguments calls {R} _.

Section Rec.
Context {R : Type} `{!ArticlesRepo.t R}.

Definition forward {A : Type} (c : call) (f : R → A * R) (repo : t R)
  : A * t R :=
  let '(res, inner') := f (inner repo) in
  (res, {| inner := inner'; calls := (calls repo ++ [c])%list |}).

#[export] Instance repo : ArticlesRepo.t (t R) := {|
  ArticlesRepo.InsertArticle a :=
    forward (InsertArticle a) (ArticlesRepo.InsertArticle a);
  ArticlesRepo.UpdateArticle a :=
    forward (UpdateArticle a) (ArticlesRepo.UpdateArticle a);
  ArticlesRepo.DeleteArticle id :=
    forward (DeleteArticle id) (ArticlesRepo.DeleteArticle id);
  ArticlesRepo.ArticleByID id :=
    forward (ArticleByID id) (ArticlesRepo.ArticleByID id);
  ArticlesRepo.AllArticles :=
    forward AllArticles ArticlesRepo.AllArticles
|}.
End Rec.
End recordingRepo.

Module recordingSvc.
Inductive call : Type :=
| AddArticle (article : Article)
| UpdateArticle (article : Article)
| DeleteArticle (id : string)
| Articles
| Article (id : string).

Record t (S : Type) : Type := mk { inner : S; calls : list call }.
Arguments mk {S} _ _.
Arguments inner {S} _.
Arguments calls {S} _.

Section Rec.
Context {S : Type} `{!ArticlesService.t S}.

Definition forward {A : Type} (c : call) (f : S → A * S) (svc : t S)
  : A * t S :=
  let '(res, inner') := f (inner svc) in
  (res, {| inner := inner'; calls := (calls svc ++ [c])%list |}).

#[export] Instance svc : ArticlesService.t (t S) := {|
  ArticlesService.AddArticle a :=
    forward (AddArticle a) (ArticlesService.AddArticle a);
  ArticlesService.UpdateArticle a :=
    forward (UpdateArticle a) (ArticlesService.UpdateArticle a);
  ArticlesService.DeleteArticle id :=
    forward (DeleteArticle id) (ArticlesService.DeleteArticle id);
  ArticlesService.Articles :=
    forward Articles ArticlesService.Articles;
  ArticlesService.Article id :=
    forward (Article id) (ArticlesService.Article id)
|}.
End Rec.
End recordingSvc.

(** ** net/http and gorilla/mux, as far as the handlers use them *)

Module http.
Definition StatusOK : Z := 200.
Definition StatusBadRequest : Z := 400.
Definition StatusNotFound : Z := 404.
Definition StatusInternalServerError : Z := 500.

(** [http.ResponseWriter] is an interface; the handlers only call
    [WriteHeader] and (through [io.WriteString]) [Write] on it.  A response
    writer is modelled by the calls made on it, oldest first. *)
Inductive call : Type :=
| WriteHeader (statusCode : Z)
| Write (data : string).

Definition ResponseWriter : Type := list call.

(** What net/http sends for a sequence of calls: the status line is fixed
    by the first call (a [Write] before any [WriteHeader] sends 200, and so
    does a handler that returns without a call; later [WriteHeader] calls
    are superfluous and ignored), the body is all written data in order. *)
Definition status (w : ResponseWriter) : Z :=
  match w with
  | WriteHeader code :: _ => code
  | Write _ :: _ => StatusOK
  | [] => StatusOK
  end.

Fixpoint body (w : ResponseWriter) : string :=
  match w with
  | [] => ""
  | WriteHeader _ :: w => body w
  | Write data :: w => data ++ body w
  end.

(** [*http.Request]: the body, and the route variables that
    [mux.Vars(r)] returns. *)
Record Request (B : Type) : Type := mkRequest {
  Body : B;
  Vars : gmap string string
}.
Arguments mkRequest {B} _ _.
Arguments Body {B} _.
Arguments Vars {B} _.
End http.

(** ** The HTTP transport *)

Module articlesHttpTransport.
Section Transport.
(** [type articlesHttpTransport struct { svc ArticlesService }] *)
Context {S : Type} `{!ArticlesService.t S}.

(** [json.NewDecoder(r.Body).Decode(&article)]: encoding/json is not part
    of the repository.  The decoder reads a body of type [B] and works on
    the variable it is given a pointer to: it returns the value it leaves
    in the variable together with its error result. *)
Context {B : Type} (Decode : B → Article → Article * option error).

(** What a handler can touch: the response writer, the service and the
    standard logger's output. *)
Record world : Type := mkWorld {
  w : http.ResponseWriter;
  svc : S;
  logged : list string
}.

Definition handler (A : Type) : Type := world → A * world.

Definition ret {A : Type} (a : A) : handler A := λ σ, (a, σ).

Definition bind {A C : Type} (m : handler A) (k : A → handler C)
  : handler C :=
  λ σ, let '(a, σ') := m σ in k a σ'.

Definition WriteHeader (statusCode : Z) : handler unit :=
  λ σ, (tt, {| w := (w σ ++ [http.WriteHeader statusCode])%list;
               svc := svc σ; logged := logged σ |}).

(** [io.WriteString(w, s)]; the recorded writer never fails. *)
Definition WriteString (s : string) : handler (option error) :=
  λ σ, (None, {| w := (w σ ++ [http.Write s])%list;
                 svc := svc σ; logged := logged σ |}).

(** [log.Println(err)] *)
Definition Println (err : error) : handler unit :=
  λ σ, (tt, {| w := w σ; svc := svc σ;
               logged := (logged σ ++ [errors.Error err])%list |}).

(** A call of a method of [t.svc]. *)
Definition call {A : Type} (f : S → A * S) : handler A :=
  λ σ, let '(a, s') := f (svc σ) in
       (a, {| w := w σ; svc := s'; logged := logged σ |}).

#[local] Instance handler_ret : MRet handler := @ret.
#[local] Instance handler_bind : MBind handler := λ A C k m, bind m k.

(** Routed as [PUT /articles]. *)
Definition addArticle (r : http.Request B) : handler unit :=
  let '(article, err) := Decode (http.Body r) zeroArticle in
  match err with
  | Some err =>
      Println err;;
      WriteHeader http.StatusBadRequest;;
      err ← WriteString "bad request";
      match err with
      | Some err => Println err
      | None => ret tt
      end
  | None => ret tt
  end;;
  err ← call (ArticlesService.AddArticle article);
  match err with
  | Some err =>
      Println err;;
      WriteHeader http.StatusInternalServerError;;
      _ ← WriteString (errors.Error err);
      ret tt
  | None =>
      WriteHeader http.StatusOK;;
      _ ← WriteString "ok";
      ret tt
  end.

(** Routed as [PUT /articles/{id}]. *)
Definition updateArticle (r : http.Request B) : handler unit :=
  let '(article, err) := Decode (http.Body r) zeroArticle in
  match err with
  | Some err =>
      Println err;;
      WriteHeader http.StatusBadRequest;;
      err ← WriteString "bad request";
      match err with
      | Some err => Println err
      | None => ret tt
      end
  | None => ret tt
  end;;
  let vars := http.Vars r in
  let articleID := default "" (vars !! "id") in
  let article := setID articleID article in
  err ← call (ArticlesService.UpdateArticle article);
  match err with
  | Some err =>
      Println err;;
      WriteHeader http.StatusInternalServerError;;
      _ ← WriteString (errors.Error err);
      ret tt
  | None =>
      WriteHeader http.StatusOK;;
      _ ← WriteString "ok";
      ret tt
  end.

(** Routed as [GET /articles/{id}]; the body of the function is empty. *)
Definition articleByID (r : http.Request B) : handler unit :=
  ret tt.

(** Routed as [DELETE /articles/{id}]; the body of the function is
    empty. *)
Definition deleteArticle (r : http.Request B) : handler unit :=
  ret tt.

(** The world in which the server runs a handler for a new request. *)
Definition serving (s : S) : world :=
  {| w := []; svc := s; logged := [] |}.

(** [json.NewEncoder(w).Encode(articles)]: encoding/json is not part of the
    repository.  [Marshal] is what the encoder makes of the slice: the bytes
    it is going to write (the JSON text and a newline), or its error.  The
    encoder hands the bytes to [w] in one [Write], and writes nothing when
    marshalling fails. *)
Context (Marshal : list Article → error + string).

Definition Encode (articles : list Article) : handler (option error) :=
  match Marshal articles with
  | inl err => ret (Some err)
  | inr data => WriteString data
  end.

(** Routed as [GET /articles]. *)
Definition articles (r : http.Request B) : handler unit :=
  res ← call ArticlesService.Articles;
  let '(articles, err) := res in
  match err with
  | Some err =>
      WriteHeader http.StatusInternalServerError;;
      Println err;;
      err ← WriteString (errors.Error err);
      match err with
      | Some err => Println err
      | None => ret tt
      end
  | None =>
      err ← Encode articles;
      match err with
      | Some err =>
          WriteHeader http.StatusInternalServerError;;
          Println err;;
          err ← WriteString (errors.Error err);
          match err with
          | Some err => Println err
          | None => ret tt
          end
      | None => ret tt
      end
  end.
End Transport.
End articlesHttpTransport.

(** ** A reference decoder

    The transport takes its decoder as a parameter.  To run the handlers on
    concrete requests this module supplies one that follows the rules
    documented for encoding/json when the target is the [Article] struct:
    a body that is not JSON is rejected before the target is touched; keys
    are matched to the field tags ignoring ASCII case and unknown keys are
    skipped; [null] leaves a field as it is; a value of the wrong JSON kind
    leaves the field as it is, is remembered as the error to return (the
    earliest one wins) and decoding goes on with the next key; an error
    returned by [time.Time]'s own UnmarshalJSON stops decoding at once.
    Bodies are taken after lexing, and error texts are abbreviated. *)

Module json.
#[local] Unset Elimination Schemes.
Inductive value : Type :=
| Null
| Bool (b : bool)
| Number (literal : string)
| String (s : string) (rfc3339 : option time.Time)
    (** a string, and the instant it denotes when it is an RFC 3339
        timestamp *)
| Array (elems : list value)
| Object (members : list (string * value)).
#[local] Set Elimination Schemes.

Inductive body : Type :=
| Malformed (err : error)  (** not a JSON text; [err] is the scanner's error *)
| Text (v : value).

Definition kind (v : value) : string :=
  match v with
  | Null => "null"
  | Bool _ => "bool"
  | Number _ => "number"
  | String _ _ => "string"
  | Array _ => "array"
  | Object _ => "object"
  end.

Definition typeError (v : value) (field ty : string) : error :=
  errors.New ("json: cannot unmarshal " ++ kind v ++
              " into Go struct field Article." ++ field ++
              " of type " ++ ty).

Definition saveError (saved : option error) (e : error) : option error :=
  match saved with
  | None => Some e
  | Some _ => saved
  end.

Definition lower (c : Ascii.ascii) : Ascii.ascii :=
  let n := Ascii.nat_of_ascii c in
  if (65 <=? n)%nat && (n <=? 90)%nat then Ascii.ascii_of_nat (n + 32)
  else c.

Fixpoint foldName (s : string) : string :=
  match s with
  | EmptyString => EmptyString
  | String.String c s => String.String (lower c) (foldName s)
  end.

Inductive field : Type := FID | FTitle | FTags | FContent | FPublishAt.

Definition lookupField (key : string) : option field :=
  let k := foldName key in
  if decide (k = "id") then Some FID
  else if decide (k = "title") then Some FTitle
  else if decide (k = "tags") then Some FTags
  else if decide (k = "content") then Some FContent
  else if decide (k = "publishat") then Some FPublishAt
  else None.

Definition storeString (name : string) (v : value) (cur : string)
    (saved : option error) : string * option error :=
  match v with
  | String s _ => (s, saved)
  | Null => (cur, saved)
  | _ => (cur, saveError saved (typeError v name "string"))
  end.

Fixpoint storeElems (name : string) (elems : list value) (cur : list string)
    (saved : option error) : list string * option error :=
  match elems with
  | [] => ([], saved)
  | v :: elems =>
      let '(s, saved) := storeString name v (default "" (head cur)) saved in
      let '(l, saved) := storeElems name elems (tail cur) saved in
      (s :: l, saved)
  end.

Definition storeStrings (name : string) (v : value)
    (cur : option (list string)) (saved : option error)
  : option (list string) * option error :=
  match v with
  | Array elems =>
      let '(l, saved) := storeElems name elems (default [] cur) saved in
      (Some l, saved)
  | Null => (None, saved)
  | _ => (cur, saveError saved (typeError v name "[]string"))
  end.

Definition storeTime (v : value) (cur : time.Time) : error + time.Time :=
  match v with
  | Null => inr cur
  | String _ (Some t) => inr t
  | String _ None => inl (errors.New "parsing time: not an RFC 3339 timestamp")
  | _ => inl (errors.New "Time.UnmarshalJSON: input is not a JSON string")
  end.

Fixpoint storeMembers (members : list (string * value)) (a : Article)
    (saved : option error) : Article * option error :=
  match members with
  | [] => (a, saved)
  | (key, v) :: members =>
      match lookupField key with
      | None => storeMembers members a saved
      | Some FID =>
          let '(s, saved) := storeString "id" v (ID a) saved in
          storeMembers members (setID s a) saved
      | Some FTitle =>
          let '(s, saved) := storeString "title" v (Title a) saved in
          storeMembers members
            {| ID := ID a; Title := s; Tags := Tags a; Content := Content a;
               PublishAt := PublishAt a |} saved
      | Some FTags =>
          let '(l, saved) := storeStrings "tags" v (Tags a) saved in
          storeMembers members
            {| ID := ID a; Title := Title a; Tags := l; Content := Content a;
               PublishAt := PublishAt a |} saved
      | Some FContent =>
          let '(s, saved) := storeString "content" v (Content a) saved in
          storeMembers members
            {| ID := ID a; Title := Title a; Tags := Tags a; Content := s;
               PublishAt := PublishAt a |} saved
      | Some FPublishAt =>
          match storeTime v (PublishAt a) with
          | inl e => (a, Some e)
          | inr t =>
              storeMembers members
                {| ID := ID a; Title := Title a; Tags := Tags a;
                   Content := Content a; PublishAt := t |} saved
          end
      end
  end.

Definition Decode (b : body) (a : Article) : Article * option error :=
  match b with
  | Malformed e => (a, Some e)
  | Text Null => (a, None)
  | Text (Object members) => storeMembers members a None
  | Text v =>
      (a, Some (errors.New ("json: cannot unmarshal " ++ kind v ++
                            " into Go value of type main.Article")))
  end.
End json.

(** ** The program as [main] wires it

    [repo = newInMemoryRepo()], [svc = newArticleSvc(repo)],
    [articlesTransport = newArticlesHttpTransport(svc)]: the service runs on
    the in-memory repository and the transport on that service. *)

Module main.
Section Wiring.
Variable mapRange : gmap string Article → list (string * Article).

Definition repo : ArticlesRepo.t inMemoryRepo.t :=
  inMemoryRepo.repo mapRange.

Definition svc : ArticlesService.t inMemoryRepo.t :=
  @articleSvc.svc inMemoryRepo.t repo.
End Wiring.
End main.

(** ** printArticles *)

Section PrintArticles.
Context {S : Type} `{!ArticlesService.t S}.

(** [fmt.Printf("articles: %+v\n", articles)]: fmt is not part of the
    repository.  [Sprintf] is the text that this call prints for a slice. *)
Variable Sprintf : list Article → string.

(** How [printArticles] ends: [log.Fatalln(err)] prints the error and exits
    the process, [fmt.Printf] prints the articles and the function
    returns. *)
Inductive printed : Type :=
| Fatalln (line : string)
| Printf (text : string).

Definition printArticles (svc : S) : printed * S :=
  let '((articles, err), svc) := ArticlesService.Articles svc in
  match err with
  | Some err => (Fatalln (errors.Error err), svc)
  | None => (Printf (Sprintf articles), svc)
  end.
End PrintArticles.

(** ** States of the repository that the program can reach *)

(** The repository is created empty and only its own methods write to its
    map. *)
Inductive reachable : inMemoryRepo.t → Prop :=
| reachable_new :
    reachable inMemoryRepo.new
| reachable_insert (repo : inMemoryRepo.t) (article : Article) :
    reachable repo → reachable (inMemoryRepo.InsertArticle article repo).2
| reachable_update (repo : inMemoryRepo.t) (article : Article) :
    reachable repo → reachable (inMemoryRepo.UpdateArticle article repo).2
| reachable_delete (repo : inMemoryRepo.t) (id : string) :
    reachable repo → reachable (inMemoryRepo.DeleteArticle id repo).2.

(** Every entry of the map is stored under the id of its article. *)
Definition keyed_by_id (repo : inMemoryRepo.t) : Prop :=
  ∀ (k : string) (a : Article),
    inMemoryRepo.articles repo !! k = Some a → ID a = k.

(** The articles of [l] inserted one after the other, first to last. *)
Definition insertAll (l : list Article) (repo : inMemoryRepo.t)
  : inMemoryRepo.t :=
  foldl (λ repo article, (inMemoryRepo.InsertArticle article repo).2) repo l.

(** The map entry that [InsertArticle] writes for an article. *)
Definition entry (article : Article) : string * Article :=
  (ID article, article).

(** What [AllArticles] returns on a store, for a given iteration order. *)
Definition listing (mapRange : gmap string Article → list (string * Article))
    (repo : inMemoryRepo.t) : list Article :=
  (inMemoryRepo.AllArticles mapRange repo).1.1.

(** The articles of [l] added one after the other through the service,
    first to last, whatever each call returns. *)
Definition addAll (mapRange : gmap string Article → list (string * Article))
    (l : list Article) (repo : inMemoryRepo.t) : inMemoryRepo.t :=
  foldl (λ repo article,
           (@articleSvc.AddArticle _ (main.repo mapRange) article repo).2)
        repo l.

(** The articles of [l] that carry the id [id], in the order of [l]. *)
Definition withID (id : string) (l : list Article) : list Article :=
  filter (λ a, ID a = id) l.

(** The unspecified iteration order instantiated by stdpp's enumeration of
    the map, for running [AllArticles] on concrete stores. *)
Definition someRange (m : gmap string Article) : list (string * Article) :=
  map_to_list m.

(** ** Sample articles and request bodies *)

Module sample.
(** 2024-01-01T00:00:00Z: no monotonic reading, 63839664000 seconds after
    January 1 of year 1, in UTC. *)
Definition newYear2024 : time.Time :=
  {| time.wall := 0; time.ext := 63839664000; time.loc := None |}.

Definition a1 : Article :=
  {| ID := "a1"; Title := "T"; Tags := Some ["x"; "y"]; Content := "C";
     PublishAt := newYear2024 |}.

(** Another article with the id of [a1]. *)
Definition a1' : Article :=
  {| ID := "a1"; Title := "T2"; Tags := Some ["y"; "y"]; Content := "";
     PublishAt := time.zero |}.

Definition a2 : Article :=
  {| ID := "a2"; Title := "U"; Tags := None; Content := "D";
     PublishAt := time.zero |}.

(** A well-formed body carrying all five fields of [a1]. *)
Definition bodyA1 : json.body :=
  json.Text (json.Object [
    ("id", json.String "a1" None);
    ("title", json.String "T" None);
    ("tags", json.Array [json.String "x" None; json.String "y" None]);
    ("content", json.String "C" None);
    ("publishAt", json.String "2024-01-01T00:00:00Z" (Some newYear2024))]).

(** A JSON object whose title is a number: id a1, title 5. *)
Definition bodyNumericTitle : json.body :=
  json.Text (json.Object [
    ("id", json.String "a1" None);
    ("title", json.Number "5")]).

(** A body that is not JSON at all. *)
Definition bodyNotJSON : json.body :=
  json.Malformed
    (errors.New "invalid character 'h' looking for beginning of value").

Definition store (l : list Article) : inMemoryRepo.t :=
  insertAll l inMemoryRepo.new.
End sample.

(** * Properties *)

(** ** The repository *)

Section RepoFacts.
Implicit Types (repo : inMemoryRepo.t) (article : Article) (id : string).

Lemma repo_eq repo repo' :
  inMemoryRepo.articles repo = inMemoryRepo.articles repo' → repo = repo'.
Proof. destruct repo, repo'; simpl; congruence. Qed.

Lemma InsertArticle_never_fails article repo :
  (inMemoryRepo.InsertArticle article repo).1 = None.
Proof. reflexivity. Qed.

Lemma ArticleByID_found id repo article :
  inMemoryRepo.articles repo !! id = Some article →
  inMemoryRepo.ArticleByID id repo = ((Some article, None), repo).
Proof. intros Hin. unfold inMemoryRepo.ArticleByID. by rewrite Hin. Qed.

Lemma ArticleByID_missing id repo :
  inMemoryRepo.articles repo !! id = None →
  inMemoryRepo.ArticleByID id repo = ((None, Some ErrArticleNotFound), repo).
Proof. intros Hout. unfold inMemoryRepo.ArticleByID. by rewrite Hout. Qed.

(** The loop of [AllArticles] collects the values in the order of the
    range. *)
Lemma range_loop (kvs : list (string * Article)) (acc : list Article) :
  foldl (λ articles kv, (articles ++ [kv.2])%list) acc kvs
  = (acc ++ kvs.*2)%list.
Proof.
  revert acc. induction kvs as [|kv kvs IH]; intros acc; simpl.
  - by rewrite app_nil_r.
  - rewrite IH. by rewrite <- app_assoc.
Qed.

Lemma AllArticles_values mapRange repo :
  inMemoryRepo.AllArticles mapRange repo
  = (((mapRange (inMemoryRepo.articles repo)).*2, None), repo).
Proof. unfold inMemoryRepo.AllArticles. by rewrite range_loop. Qed.

Lemma AllArticles_elem mapRange repo article :
  inMemoryRepo.mapRange_visits_each_once mapRange →
  article ∈ (inMemoryRepo.AllArticles mapRange repo).1.1 ↔
  ∃ k, inMemoryRepo.articles repo !! k = Some article.
Proof.
  intros Hperm. rewrite AllArticles_values. simpl.
  rewrite list_elem_of_fmap. split.
  - intros [[k a] [-> Hin]]. exists k.
    rewrite (Hperm _) in Hin. by apply elem_of_map_to_list in Hin.
  - intros [k Hk]. exists (k, article). split; [done|].
    rewrite (Hperm _). by apply elem_of_map_to_list.
Qed.
End RepoFacts.

(** C2.  On the in-memory repository, updating an article whose id is
    absent fails with [ErrArticleNotFound] and leaves the repository, map
    included, exactly as it was; updating an article whose id is present
    returns no error and overwrites the entry stored under that id with the
    given article, every other entry staying as it was. *)
Theorem UpdateArticle_absent_or_overwrite
    (repo : inMemoryRepo.t) (article : Article) :
  (inMemoryRepo.articles repo !! ID article = None →
     inMemoryRepo.UpdateArticle article repo = (Some ErrArticleNotFound, repo)
     ∧ inMemoryRepo.articles (inMemoryRepo.UpdateArticle article repo).2
       = inMemoryRepo.articles repo)
  ∧ (is_Some (inMemoryRepo.articles repo !! ID article) →
     (inMemoryRepo.UpdateArticle article repo).1 = None
     ∧ inMemoryRepo.articles (inMemoryRepo.UpdateArticle article repo).2
         !! ID article = Some article
     ∧ ∀ id, id ≠ ID article →
         inMemoryRepo.articles (inMemoryRepo.UpdateArticle article repo).2 !! id
         = inMemoryRepo.articles repo !! id).
Proof.
  unfold inMemoryRepo.UpdateArticle. split.
  - intros ->. done.
  - intros [old ->]. simpl. split_and!; [done| |].
    + apply lookup_insert_eq.
    + intros id Hne. by apply lookup_insert_ne.
Qed.

Lemma UpdateArticle_absent_or_overwrite_witness :
  (inMemoryRepo.articles inMemoryRepo.new !! ID sample.a1 = None
   ∧ inMemoryRepo.UpdateArticle sample.a1 inMemoryRepo.new
     = (Some ErrArticleNotFound, inMemoryRepo.new))
  ∧ (is_Some (inMemoryRepo.articles (sample.store [sample.a1]) !! ID sample.a1')
     ∧ inMemoryRepo.articles
         (inMemoryRepo.UpdateArticle sample.a1' (sample.store [sample.a1])).2
         !! "a1" = Some sample.a1').
Proof.
  split.
  - split; [reflexivity|].
    apply (UpdateArticle_absent_or_overwrite inMemoryRepo.new sample.a1).
    reflexivity.
  - assert (is_Some (inMemoryRepo.articles (sample.store [sample.a1])
                       !! ID sample.a1')) as Hin.
    { exists sample.a1. vm_compute. reflexivity. }
    split; [exact Hin|].
    apply (UpdateArticle_absent_or_overwrite (sample.store [sample.a1])
             sample.a1'), Hin.
Defined.

(** ** The service on the in-memory repository *)

Section ServiceFacts.
Variable mapRange : gmap string Article → list (string * Article).
Implicit Types (repo : inMemoryRepo.t) (article : Article) (id : string).

Let AddArticle := @articleSvc.AddArticle _ (main.repo mapRange).
Let RecordedAddArticle :=
  @articleSvc.AddArticle _ (@recordingRepo.repo _ (main.repo mapRange)).

Lemma AddArticle_stored article repo stored :
  inMemoryRepo.articles repo !! ID article = Some stored →
  AddArticle article repo
  = (Some (errors.New "article already exists"), repo).
Proof.
  intros Hin. unfold AddArticle, articleSvc.AddArticle. simpl.
  by rewrite (ArticleByID_found _ _ _ Hin).
Qed.

Lemma AddArticle_fresh article repo :
  inMemoryRepo.articles repo !! ID article = None →
  AddArticle article repo = inMemoryRepo.InsertArticle article repo.
Proof.
  intros Hout. unfold AddArticle, articleSvc.AddArticle. simpl.
  by rewrite (ArticleByID_missing _ _ Hout).
Qed.

Lemma RecordedAddArticle_stored article repo calls stored :
  inMemoryRepo.articles repo !! ID article = Some stored →
  RecordedAddArticle article (recordingRepo.mk repo calls)
  = (Some (errors.New "article already exists"),
     recordingRepo.mk repo
       (calls ++ [recordingRepo.ArticleByID (ID article)])%list).
Proof.
  intros Hin. unfold RecordedAddArticle, articleSvc.AddArticle. simpl.
  unfold recordingRepo.forward. simpl.
  by rewrite (ArticleByID_found _ _ _ Hin).
Qed.

Lemma RecordedAddArticle_fresh article repo calls :
  inMemoryRepo.articles repo !! ID article = None →
  RecordedAddArticle article (recordingRepo.mk repo calls)
  = (None,
     recordingRepo.mk (inMemoryRepo.InsertArticle article repo).2
       (calls ++ [recordingRepo.ArticleByID (ID article);
                  recordingRepo.InsertArticle article])%list).
Proof.
  intros Hout. unfold RecordedAddArticle, articleSvc.AddArticle. simpl.
  unfold recordingRepo.forward. simpl.
  rewrite (ArticleByID_missing _ _ Hout). simpl.
  by rewrite <- app_assoc.
Qed.
End ServiceFacts.

(** C1.  On every state of the in-memory repository in which the id of the
    article is already present, the service's [AddArticle] returns the error
    "article already exists"; the only call it makes on the repository is
    [ArticleByID] (no [InsertArticle]); and the repository is left as it was,
    so the article stored under that id is still the one stored before. *)
Theorem AddArticle_existing_is_rejected
    (mapRange : gmap string Article → list (string * Article))
    (repo : inMemoryRepo.t) (calls : list recordingRepo.call)
    (article stored : Article) :
  inMemoryRepo.articles repo !! ID article = Some stored →
  let out :=
    @articleSvc.AddArticle _ (@recordingRepo.repo _ (main.repo mapRange))
      article (recordingRepo.mk repo calls) in
  out.1 = Some (errors.New "article already exists")
  ∧ recordingRepo.calls out.2
    = (calls ++ [recordingRepo.ArticleByID (ID article)])%list
  ∧ (∀ a, recordingRepo.InsertArticle a
          ∉ drop (length calls) (recordingRepo.calls out.2))
  ∧ recordingRepo.inner out.2 = repo
  ∧ inMemoryRepo.articles (recordingRepo.inner out.2) !! ID article
    = Some stored
  ∧ @articleSvc.AddArticle _ (main.repo mapRange) article repo
    = (Some (errors.New "article already exists"), repo).
Proof.
  intros Hin out. subst out.
  rewrite (RecordedAddArticle_stored mapRange _ _ calls _ Hin). simpl.
  split_and!; try done.
  - intros a. rewrite drop_app_length. by intros ?%list_elem_of_singleton.
  - by apply (AddArticle_stored mapRange _ _ stored).
Qed.

Lemma AddArticle_existing_is_rejected_witness :
  inMemoryRepo.articles (sample.store [sample.a1]) !! ID sample.a1'
  = Some sample.a1
  ∧ (@articleSvc.AddArticle _ (main.repo someRange) sample.a1'
       (sample.store [sample.a1])
     = (Some (errors.New "article already exists"), sample.store [sample.a1])).
Proof.
  assert (inMemoryRepo.articles (sample.store [sample.a1]) !! ID sample.a1'
          = Some sample.a1) as Hin by (vm_compute; reflexivity).
  split; [exact Hin|].
  apply (AddArticle_existing_is_rejected someRange (sample.store [sample.a1])
           [] sample.a1' sample.a1 Hin).
Defined.

(** C3.  On every state of the in-memory repository in which the id of the
    article is absent, the service's [AddArticle] succeeds, and fetching by
    that id afterwards (through the service or straight from the repository)
    succeeds and returns an article equal to the inserted one in each of its
    five fields. *)
Theorem AddArticle_then_fetch_returns_it
    (mapRange : gmap string Article → list (string * Article))
    (repo : inMemoryRepo.t) (article : Article) :
  inMemoryRepo.articles repo !! ID article = None →
  let added := @articleSvc.AddArticle _ (main.repo mapRange) article repo in
  added.1 = None
  ∧ ∃ fetched : Article,
      @articleSvc.Article _ (main.repo mapRange) (ID article) added.2
      = ((Some fetched, None), added.2)
      ∧ inMemoryRepo.ArticleByID (ID article) added.2
        = ((Some fetched, None), added.2)
      ∧ fetched = article
      ∧ ID fetched = ID article
      ∧ Title fetched = Title article
      ∧ Tags fetched = Tags article
      ∧ Content fetched = Content article
      ∧ PublishAt fetched = PublishAt article.
Proof.
  intros Hout added. subst added.
  rewrite (AddArticle_fresh mapRange _ _ Hout). simpl.
  split; [done|]. exists article.
  assert (inMemoryRepo.ArticleByID (ID article)
            (inMemoryRepo.mk (<[ID article:=article]> (inMemoryRepo.articles repo)))
          = ((Some article, None),
             inMemoryRepo.mk (<[ID article:=article]> (inMemoryRepo.articles repo))))
    as Hfetch.
  { apply ArticleByID_found. simpl. apply lookup_insert_eq. }
  split_and!; try done.
Qed.

Lemma AddArticle_then_fetch_returns_it_witness :
  inMemoryRepo.articles (sample.store [sample.a2]) !! ID sample.a1 = None
  ∧ (@articleSvc.AddArticle _ (main.repo someRange) sample.a1
       (sample.store [sample.a2])).1 = None.
Proof.
  assert (inMemoryRepo.articles (sample.store [sample.a2]) !! ID sample.a1
          = None) as Hout by (vm_compute; reflexivity).
  split; [exact Hout|].
  apply (AddArticle_then_fetch_returns_it someRange
           (sample.store [sample.a2]) sample.a1 Hout).
Defined.

(** C10.  With the in-memory repository, the service's [AddArticle] returns
    an error exactly when an article with the given id is stored.  When none
    is stored the existence check does return [ErrArticleNotFound], but the
    service goes on to [InsertArticle] and returns its result, which is never
    an error; [ErrArticleNotFound] is never the result of [AddArticle]. *)
Theorem AddArticle_fails_iff_stored
    (mapRange : gmap string Article → list (string * Article))
    (repo : inMemoryRepo.t) (article : Article) :
  let out := @articleSvc.AddArticle _ (main.repo mapRange) article repo in
  (is_Some out.1 ↔ is_Some (inMemoryRepo.articles repo !! ID article))
  ∧ out.1 ≠ Some ErrArticleNotFound
  ∧ (inMemoryRepo.InsertArticle article repo).1 = None
  ∧ (inMemoryRepo.articles repo !! ID article = None →
       (inMemoryRepo.ArticleByID (ID article) repo).1
       = (None, Some ErrArticleNotFound)
       ∧ out = inMemoryRepo.InsertArticle article repo
       ∧ ∀ calls,
           @articleSvc.AddArticle _
             (@recordingRepo.repo _ (main.repo mapRange))
             article (recordingRepo.mk repo calls)
           = (None,
              recordingRepo.mk (inMemoryRepo.InsertArticle article repo).2
                (calls ++ [recordingRepo.ArticleByID (ID article);
                           recordingRepo.InsertArticle article])%list)).
Proof.
  intros out. subst out.
  destruct (inMemoryRepo.articles repo !! ID article) as [stored|] eqn:Hlk.
  - rewrite (AddArticle_stored mapRange _ _ _ Hlk). simpl.
    split_and!; try done.
  - rewrite (AddArticle_fresh mapRange _ _ Hlk). simpl.
    split_and!; try done.
    intros _. split_and!; try done.
    + by rewrite (ArticleByID_missing _ _ Hlk).
    + intros calls. by apply RecordedAddArticle_fresh.
Qed.

(** ** Reachable states, listing and deletion *)

Section ListingFacts.
Variable mapRange : gmap string Article → list (string * Article).
Hypothesis range_ok : inMemoryRepo.mapRange_visits_each_once mapRange.
Implicit Types (repo : inMemoryRepo.t) (article : Article) (id : string).

Lemma listing_values repo :
  listing mapRange repo = (mapRange (inMemoryRepo.articles repo)).*2.
Proof. unfold listing. by rewrite AllArticles_values. Qed.

Lemma listing_perm repo :
  listing mapRange repo ≡ₚ (map_to_list (inMemoryRepo.articles repo)).*2.
Proof. rewrite listing_values. by rewrite (range_ok _). Qed.

Lemma listing_elem repo article :
  article ∈ listing mapRange repo ↔
  ∃ k, inMemoryRepo.articles repo !! k = Some article.
Proof. by apply AllArticles_elem. Qed.

(** In a store keyed by id, the ids of the listed articles are the keys of
    the map, in the order of the listing. *)
Lemma listing_ids repo :
  keyed_by_id repo →
  ID <$> listing mapRange repo = (mapRange (inMemoryRepo.articles repo)).*1.
Proof.
  intros Hkeyed. rewrite listing_values.
  assert (Forall (λ kv, inMemoryRepo.articles repo !! kv.1 = Some kv.2)
            (mapRange (inMemoryRepo.articles repo))) as Hall.
  { apply Forall_forall. intros [k a] Hin. simpl.
    rewrite (range_ok _) in Hin. by apply elem_of_map_to_list. }
  induction Hall as [|[k a] kvs Hkv _ IH]; [done|].
  csimpl. rewrite IH. simpl in Hkv. by rewrite (Hkeyed _ _ Hkv).
Qed.

Lemma listing_ids_NoDup repo :
  keyed_by_id repo → NoDup (ID <$> listing mapRange repo).
Proof.
  intros Hkeyed. rewrite (listing_ids _ Hkeyed), (range_ok _).
  apply NoDup_fst_map_to_list.
Qed.
End ListingFacts.

Lemma reachable_keyed_by_id (repo : inMemoryRepo.t) :
  reachable repo → keyed_by_id repo.
Proof.
  induction 1 as [|repo article _ IH|repo article _ IH|repo id _ IH];
    intros k a; simpl.
  - by rewrite lookup_empty.
  - rewrite lookup_insert. case_decide; [congruence|]. apply IH.
  - unfold inMemoryRepo.UpdateArticle.
    destruct (inMemoryRepo.articles repo !! ID article); simpl; [|apply IH].
    rewrite lookup_insert. case_decide; [congruence|]. apply IH.
  - rewrite lookup_delete. case_decide; [done|]. apply IH.
Qed.

Lemma insertAll_snoc (l : list Article) (article : Article)
    (repo : inMemoryRepo.t) :
  insertAll (l ++ [article]) repo
  = (inMemoryRepo.InsertArticle article (insertAll l repo)).2.
Proof. unfold insertAll. by rewrite foldl_app. Qed.

Lemma insertAll_reachable (l : list Article) (repo : inMemoryRepo.t) :
  reachable repo → reachable (insertAll l repo).
Proof.
  revert repo. induction l as [|a l IH]; intros repo Hrepo; [done|].
  simpl. apply IH. by apply reachable_insert.
Qed.

(** With pairwise distinct ids, the map after the inserts holds exactly the
    entries of the inserted articles. *)
Lemma insertAll_articles (l : list Article) :
  NoDup (ID <$> l) →
  inMemoryRepo.articles (insertAll l inMemoryRepo.new)
  = list_to_map (entry <$> l).
Proof.
  induction l as [|a l IH] using rev_ind; intros Hnd; [done|].
  rewrite fmap_app in Hnd. apply NoDup_app in Hnd as (Hl & Hfresh & _).
  rewrite insertAll_snoc. simpl. rewrite (IH Hl).
  rewrite fmap_app. simpl. unfold entry at 3.
  rewrite list_to_map_snoc; [done|].
  rewrite <- list_fmap_compose. intros Hin. apply (Hfresh (ID a)); [done|].
  simpl. apply list_elem_of_singleton. done.
Qed.

(** C9.  In every state of the repository reached from the empty store by
    [InsertArticle], [UpdateArticle] and [DeleteArticle] calls, every stored
    article is stored under its own id, and no two stored articles have the
    same id: the ids of the articles that [AllArticles] returns are pairwise
    distinct, whatever the iteration order of the map. *)
Theorem reachable_one_article_per_id
    (mapRange : gmap string Article → list (string * Article))
    (repo : inMemoryRepo.t) :
  inMemoryRepo.mapRange_visits_each_once mapRange →
  reachable repo →
  (∀ (k : string) (a : Article),
      inMemoryRepo.articles repo !! k = Some a → ID a = k)
  ∧ NoDup (ID <$> listing mapRange repo)
  ∧ (∀ a b : Article,
      a ∈ listing mapRange repo → b ∈ listing mapRange repo →
      ID a = ID b → a = b)
  ∧ (∀ a : Article,
      a ∈ listing mapRange repo ↔
      inMemoryRepo.articles repo !! ID a = Some a).
Proof.
  intros Hrange Hreach.
  pose proof (reachable_keyed_by_id _ Hreach) as Hkeyed.
  assert (∀ a, a ∈ listing mapRange repo ↔
               inMemoryRepo.articles repo !! ID a = Some a) as Hstored.
  { intros a. rewrite (listing_elem _ Hrange). split.
    - intros [k Hk]. by rewrite (Hkeyed _ _ Hk).
    - intros Hk. by exists (ID a). }
  split_and!; [exact Hkeyed| |  |exact Hstored].
  - by apply listing_ids_NoDup.
  - intros a b Ha%Hstored Hb%Hstored Heq. rewrite Heq in Ha. congruence.
Qed.

Lemma reachable_one_article_per_id_witness :
  reachable (sample.store [sample.a1; sample.a2])
  ∧ NoDup (ID <$> listing someRange (sample.store [sample.a1; sample.a2])).
Proof.
  assert (reachable (sample.store [sample.a1; sample.a2])) as Hreach.
  { apply (reachable_insert _ sample.a2), (reachable_insert _ sample.a1),
      reachable_new. }
  split; [exact Hreach|].
  apply (reachable_one_article_per_id someRange
           (sample.store [sample.a1; sample.a2])); [|exact Hreach].
  intros m. reflexivity.
Defined.

(** C6.  On every reachable state and for every id, the repository's
    [DeleteArticle] returns no error.  When the id is absent the state is
    left unchanged.  In all cases a subsequent [ArticleByID] for that id
    fails with [ErrArticleNotFound] and a subsequent [AllArticles] returns
    no article with that id, while returning every other article that was
    listed before. *)
Theorem DeleteArticle_removes_entry
    (mapRange : gmap string Article → list (string * Article))
    (repo : inMemoryRepo.t) (id : string) :
  inMemoryRepo.mapRange_visits_each_once mapRange →
  reachable repo →
  let out := inMemoryRepo.DeleteArticle id repo in
  out.1 = None
  ∧ (inMemoryRepo.articles repo !! id = None → out.2 = repo)
  ∧ inMemoryRepo.ArticleByID id out.2
    = ((None, Some ErrArticleNotFound), out.2)
  ∧ (inMemoryRepo.AllArticles mapRange out.2).1.2 = None
  ∧ (∀ a : Article, a ∈ listing mapRange out.2 → ID a ≠ id)
  ∧ (∀ a : Article,
      a ∈ listing mapRange out.2 ↔ a ∈ listing mapRange repo ∧ ID a ≠ id).
Proof.
  intros Hrange Hreach out. subst out. simpl.
  pose proof (reachable_keyed_by_id _ Hreach) as Hkeyed.
  assert (∀ a, a ∈ listing mapRange
                     (inMemoryRepo.mk (delete id (inMemoryRepo.articles repo)))
               ↔ a ∈ listing mapRange repo ∧ ID a ≠ id) as Hlist.
  { intros a. rewrite !(listing_elem _ Hrange). simpl. split.
    - intros [k [Hne Hk]%lookup_delete_Some]. split; [by exists k|].
      by rewrite (Hkeyed _ _ Hk).
    - intros [[k Hk] Hne]. exists k. apply lookup_delete_Some.
      split; [|done]. by rewrite <- (Hkeyed _ _ Hk). }
  split_and!; try done.
  - intros Hout. apply repo_eq. simpl. by apply delete_id.
  - apply ArticleByID_missing. simpl. apply lookup_delete_eq.
  - intros a Ha. by apply Hlist in Ha as [_ ?].
Qed.

Lemma DeleteArticle_removes_entry_witness :
  reachable (sample.store [sample.a1; sample.a2])
  ∧ inMemoryRepo.ArticleByID "a1"
      (inMemoryRepo.DeleteArticle "a1"
         (sample.store [sample.a1; sample.a2])).2
    = ((None, Some ErrArticleNotFound),
       (inMemoryRepo.DeleteArticle "a1"
          (sample.store [sample.a1; sample.a2])).2).
Proof.
  assert (reachable (sample.store [sample.a1; sample.a2])) as Hreach.
  { apply (reachable_insert _ sample.a2), (reachable_insert _ sample.a1),
      reachable_new. }
  split; [exact Hreach|].
  apply (DeleteArticle_removes_entry someRange
           (sample.store [sample.a1; sample.a2]) "a1"); [|exact Hreach].
  intros m. reflexivity.
Defined.

(** C7.  For every list of articles with pairwise distinct ids inserted one
    after the other into the empty repository, [AllArticles] returns no error
    and as many articles as were inserted; what it returns is a permutation of
    the inserted list, so each returned article is the inserted article with
    its id; and inserting the same articles in any other order ends in the
    same store and hence in the same result up to order. *)
Theorem AllArticles_after_distinct_inserts
    (mapRange : gmap string Article → list (string * Article))
    (l : list Article) :
  inMemoryRepo.mapRange_visits_each_once mapRange →
  NoDup (ID <$> l) →
  let out := inMemoryRepo.AllArticles mapRange (insertAll l inMemoryRepo.new) in
  out.1.2 = None
  ∧ length out.1.1 = length l
  ∧ out.1.1 ≡ₚ l
  ∧ (∀ b : Article, b ∈ out.1.1 → ∃ a, a ∈ l ∧ ID a = ID b ∧ b = a)
  ∧ (∀ a : Article, a ∈ l → a ∈ out.1.1)
  ∧ (∀ l' : list Article, l' ≡ₚ l →
       insertAll l' inMemoryRepo.new = insertAll l inMemoryRepo.new
       ∧ (inMemoryRepo.AllArticles mapRange
            (insertAll l' inMemoryRepo.new)).1.1 ≡ₚ l).
Proof.
  intros Hrange Hnd out.
  assert (∀ l0, NoDup (ID <$> l0) →
            listing mapRange (insertAll l0 inMemoryRepo.new) ≡ₚ l0) as Hperm.
  { intros l0 Hnd0. rewrite (listing_perm _ Hrange).
    rewrite (insertAll_articles _ Hnd0).
    rewrite map_to_list_to_map.
    - rewrite <- list_fmap_compose. by rewrite list_fmap_id.
    - by rewrite <- list_fmap_compose. }
  assert (out.1.1 ≡ₚ l) as Hout by apply (Hperm l Hnd).
  split_and!.
  - done.
  - by rewrite Hout.
  - exact Hout.
  - intros b Hb. exists b. by rewrite <- Hout.
  - intros a Ha. by rewrite Hout.
  - intros l' Hl'.
    assert (NoDup (ID <$> l')) as Hnd' by by rewrite Hl'.
    split.
    + apply repo_eq. rewrite !insertAll_articles by done.
      apply list_to_map_proper.
      * by rewrite <- list_fmap_compose.
      * by rewrite Hl'.
    + rewrite <- Hl'. apply (Hperm l' Hnd').
Qed.

Lemma AllArticles_after_distinct_inserts_witness :
  NoDup (ID <$> [sample.a2; sample.a1; zeroArticle])
  ∧ length (inMemoryRepo.AllArticles someRange
              (insertAll [sample.a2; sample.a1; zeroArticle]
                 inMemoryRepo.new)).1.1 = 3.
Proof.
  assert (NoDup (ID <$> [sample.a2; sample.a1; zeroArticle])) as Hnd.
  { apply (bool_decide_unpack (NoDup _)). vm_compute. exact I. }
  split; [exact Hnd|].
  apply (AllArticles_after_distinct_inserts someRange
           [sample.a2; sample.a1; zeroArticle]); [|exact Hnd].
  intros m. reflexivity.
Defined.

(** ** The transport *)

(** Unfolds the handler monad down to the calls it makes. *)
Ltac run_handler :=
  cbv beta iota zeta delta
    [mbind articlesHttpTransport.handler_bind
     articlesHttpTransport.bind articlesHttpTransport.ret
     articlesHttpTransport.call articlesHttpTransport.WriteHeader
     articlesHttpTransport.WriteString articlesHttpTransport.Println
     articlesHttpTransport.serving];
  cbn;
  cbv beta iota zeta delta [recordingSvc.forward];
  cbn.

Lemma append_empty_r (s : string) : s ++ "" = s.
Proof.
  induction s as [|c s IH]; [done|].
  change (String c (s ++ "") = String c s). by rewrite IH.
Qed.

Section TransportFacts.
Context {S : Type} `{!ArticlesService.t S}.
Context {B : Type} (Decode : B → Article → Article * option error).
#[local] Existing Instance recordingSvc.svc.

(** The transport on a service that records its calls. *)
Let served (s : S) (calls : list recordingSvc.call)
  : articlesHttpTransport.world (S := recordingSvc.t S) :=
  articlesHttpTransport.serving (recordingSvc.mk s calls).

(** What the second half of [addArticle] and of [updateArticle] writes for
    the result of the service call. *)
Let outcome (err : option error) : http.ResponseWriter :=
  match err with
  | Some err =>
      [http.WriteHeader http.StatusInternalServerError;
       http.Write (errors.Error err)]
  | None => [http.WriteHeader http.StatusOK; http.Write "ok"]
  end.

Lemma addArticle_decoded (r : http.Request B) (s : S)
    (calls : list recordingSvc.call) (a : Article) :
  Decode (http.Body r) zeroArticle = (a, None) →
  let σ' := (articlesHttpTransport.addArticle Decode r (served s calls)).2 in
  articlesHttpTransport.w σ' = outcome (ArticlesService.AddArticle a s).1
  ∧ articlesHttpTransport.svc σ'
    = recordingSvc.mk (ArticlesService.AddArticle a s).2
        (calls ++ [recordingSvc.AddArticle a])%list.
Proof.
  intros Hdec. unfold articlesHttpTransport.addArticle. rewrite Hdec.
  unfold served. run_handler.
  by destruct (ArticlesService.AddArticle a s) as [[err|] s'].
Qed.

Lemma addArticle_undecoded (r : http.Request B) (s : S)
    (calls : list recordingSvc.call) (a : Article) (e : error) :
  Decode (http.Body r) zeroArticle = (a, Some e) →
  let σ' := (articlesHttpTransport.addArticle Decode r (served s calls)).2 in
  articlesHttpTransport.w σ'
  = ([http.WriteHeader http.StatusBadRequest; http.Write "bad request"]
     ++ outcome (ArticlesService.AddArticle a s).1)%list
  ∧ articlesHttpTransport.svc σ'
    = recordingSvc.mk (ArticlesService.AddArticle a s).2
        (calls ++ [recordingSvc.AddArticle a])%list.
Proof.
  intros Hdec. unfold articlesHttpTransport.addArticle. rewrite Hdec.
  unfold served. run_handler.
  by destruct (ArticlesService.AddArticle a s) as [[err|] s'].
Qed.

Lemma updateArticle_calls (r : http.Request B) (s : S)
    (calls : list recordingSvc.call) (a : Article) (e : option error) :
  Decode (http.Body r) zeroArticle = (a, e) →
  let passed := setID (default "" (http.Vars r !! "id")) a in
  let σ' :=
    (articlesHttpTransport.updateArticle Decode r (served s calls)).2 in
  articlesHttpTransport.svc σ'
  = recordingSvc.mk (ArticlesService.UpdateArticle passed s).2
      (calls ++ [recordingSvc.UpdateArticle passed])%list
  ∧ ∃ before,
      articlesHttpTransport.w σ'
      = (before ++ outcome (ArticlesService.UpdateArticle passed s).1)%list
      ∧ (e = None → before = []).
Proof.
  intros Hdec. unfold articlesHttpTransport.updateArticle. rewrite Hdec.
  unfold served.
  destruct e as [e|]; run_handler;
    destruct (ArticlesService.UpdateArticle _ s) as [[err|] s']; cbn;
    (split; [done|]).
  1,2: by exists [http.WriteHeader http.StatusBadRequest;
                  http.Write "bad request"].
  all: by exists [].
Qed.
End TransportFacts.

(** C4.  The handler routed as [GET /articles/{id}] has an empty body: for
    every request and every state of the store, whether or not an article
    with the requested id is stored, it makes no call on the response writer
    and no call on the service.  The response that goes out therefore has
    status 200 and an empty body: no article is encoded when one is stored,
    and the status is not 404 when none is. *)
Theorem articleByID_writes_no_response
    (repo : inMemoryRepo.t) (calls : list recordingSvc.call)
    (r : http.Request json.body) :
  let σ' :=
    (@articlesHttpTransport.articleByID _ json.body r
       (articlesHttpTransport.serving (recordingSvc.mk repo calls))).2 in
  articlesHttpTransport.w σ' = []
  ∧ articlesHttpTransport.svc σ' = recordingSvc.mk repo calls
  ∧ http.status (articlesHttpTransport.w σ') = http.StatusOK
  ∧ http.status (articlesHttpTransport.w σ') ≠ http.StatusNotFound
  ∧ http.body (articlesHttpTransport.w σ') = "".
Proof. cbn. split_and!; done. Qed.

(** A request on which C5 fails as first stated.  The body is the JSON object
    with id a1 and the number 5 as title.  Decoding fails on the title, after
    the id has been stored in the variable; the handler answers 400 and then
    calls [AddArticle] with an article whose id is a1, not with the
    zero-valued article, and that article is inserted. *)
Lemma addArticle_decode_failure_passes_nonzero_article :
  let r := http.mkRequest sample.bodyNumericTitle ∅ in
  let σ' :=
    (@articlesHttpTransport.addArticle _
       (@recordingSvc.svc _ (main.svc someRange)) _ json.Decode r
       (articlesHttpTransport.serving
          (recordingSvc.mk inMemoryRepo.new []))).2 in
  is_Some (json.Decode (http.Body r) zeroArticle).2
  ∧ http.status (articlesHttpTransport.w σ') = http.StatusBadRequest
  ∧ recordingSvc.calls (articlesHttpTransport.svc σ')
    = [recordingSvc.AddArticle (setID "a1" zeroArticle)]
  ∧ recordingSvc.calls (articlesHttpTransport.svc σ')
    ≠ [recordingSvc.AddArticle zeroArticle]
  ∧ inMemoryRepo.articles
      (recordingSvc.inner (articlesHttpTransport.svc σ')) !! "a1"
    = Some (setID "a1" zeroArticle).
Proof.
  split_and!.
  - vm_compute. by eexists.
  - vm_compute. reflexivity.
  - vm_compute. reflexivity.
  - vm_compute. discriminate.
  - vm_compute. reflexivity.
Qed.

(** C5 (amended).  For every request to the handler routed as
    [PUT /articles] whose body fails to decode, the handler calls
    [WriteHeader(400)] and writes "bad request" but does not stop: it then
    calls the service's [AddArticle] exactly once, with the value that the
    decoder left in the variable [article], and appends the outcome of that
    call to the response.  The article passed is the zero-valued one exactly
    when the decoder left the variable at its zero value. *)
Theorem addArticle_decode_failure_falls_through
    {S : Type} (inner : ArticlesService.t S)
    {B : Type} (Decode : B → Article → Article * option error)
    (r : http.Request B) (s : S) (calls : list recordingSvc.call)
    (a : Article) (e : error) :
  Decode (http.Body r) zeroArticle = (a, Some e) →
  let σ' :=
    (@articlesHttpTransport.addArticle _ (@recordingSvc.svc _ inner) _ Decode r
       (articlesHttpTransport.serving (recordingSvc.mk s calls))).2 in
  let res := @ArticlesService.AddArticle _ inner a s in
  take 2 (articlesHttpTransport.w σ')
  = [http.WriteHeader http.StatusBadRequest; http.Write "bad request"]
  ∧ http.status (articlesHttpTransport.w σ') = http.StatusBadRequest
  ∧ recordingSvc.calls (articlesHttpTransport.svc σ')
    = (calls ++ [recordingSvc.AddArticle a])%list
  ∧ recordingSvc.inner (articlesHttpTransport.svc σ') = res.2
  ∧ http.body (articlesHttpTransport.w σ')
    = "bad request" ++ match res.1 with
                       | Some err => errors.Error err
                       | None => "ok"
                       end
  ∧ (recordingSvc.calls (articlesHttpTransport.svc σ')
     = (calls ++ [recordingSvc.AddArticle zeroArticle])%list
     ↔ a = zeroArticle).
Proof.
  intros Hdec σ' res.
  destruct (addArticle_undecoded Decode r s calls a e Hdec) as [Hw Hsvc].
  fold σ' in Hw, Hsvc. fold res in Hw, Hsvc.
  rewrite Hw, Hsvc. simpl.
  split_and!; try done.
  - destruct (res.1); cbn; by rewrite ?append_empty_r.
  - split; [|by intros ->].
    intros Heq%app_inv_head. congruence.
Qed.

Lemma addArticle_decode_failure_falls_through_witness :
  json.Decode sample.bodyNotJSON zeroArticle
  = (zeroArticle,
     Some (errors.New "invalid character 'h' looking for beginning of value"))
  ∧ recordingSvc.calls
      (articlesHttpTransport.svc
         (@articlesHttpTransport.addArticle _
            (@recordingSvc.svc _ (main.svc someRange)) _ json.Decode
            (http.mkRequest sample.bodyNotJSON ∅)
            (articlesHttpTransport.serving
               (recordingSvc.mk inMemoryRepo.new []))).2)
    = [recordingSvc.AddArticle zeroArticle].
Proof.
  split; [reflexivity|].
  destruct (addArticle_decode_failure_falls_through (main.svc someRange)
              json.Decode (http.mkRequest sample.bodyNotJSON ∅)
              inMemoryRepo.new [] zeroArticle
              (errors.New
                 "invalid character 'h' looking for beginning of value"))
    as (_ & _ & Hcalls & _).
  - reflexivity.
  - exact Hcalls.
Defined.

(** C8.  For every request to the handler routed as [PUT /articles/{id}]
    whose body decodes, the handler calls the service's [UpdateArticle]
    exactly once, with an article whose id is the [id] route variable,
    whatever id the decoded body carried, and whose title, tags, content and
    publishAt are those decoded from the body. *)
Theorem updateArticle_id_comes_from_path
    {S : Type} (inner : ArticlesService.t S)
    {B : Type} (Decode : B → Article → Article * option error)
    (r : http.Request B) (s : S) (calls : list recordingSvc.call)
    (id : string) (a : Article) :
  http.Vars r !! "id" = Some id →
  Decode (http.Body r) zeroArticle = (a, None) →
  let σ' :=
    (@articlesHttpTransport.updateArticle _ (@recordingSvc.svc _ inner) _
       Decode r
       (articlesHttpTransport.serving (recordingSvc.mk s calls))).2 in
  ∃ passed : Article,
    recordingSvc.calls (articlesHttpTransport.svc σ')
    = (calls ++ [recordingSvc.UpdateArticle passed])%list
    ∧ recordingSvc.inner (articlesHttpTransport.svc σ')
      = (@ArticlesService.UpdateArticle _ inner passed s).2
    ∧ ID passed = id
    ∧ Title passed = Title a
    ∧ Tags passed = Tags a
    ∧ Content passed = Content a
    ∧ PublishAt passed = PublishAt a
    ∧ (∀ bodyID : string, setID id (setID bodyID a) = passed).
Proof.
  intros Hid Hdec σ'.
  destruct (updateArticle_calls Decode r s calls a None Hdec) as [Hsvc _].
  rewrite Hid in Hsvc. simpl in Hsvc. fold σ' in Hsvc.
  exists (setID id a). rewrite Hsvc. simpl. split_and!; done.
Qed.

Lemma updateArticle_id_comes_from_path_witness :
  json.Decode sample.bodyA1 zeroArticle = (sample.a1, None)
  ∧ ∃ passed : Article,
      recordingSvc.calls
        (articlesHttpTransport.svc
           (@articlesHttpTransport.updateArticle _
              (@recordingSvc.svc _ (main.svc someRange)) _ json.Decode
              (http.mkRequest sample.bodyA1 {["id" := "a2"]})
              (articlesHttpTransport.serving
                 (recordingSvc.mk (sample.store [sample.a2]) []))).2)
      = [recordingSvc.UpdateArticle passed]
      ∧ ID passed = "a2".
Proof.
  split; [reflexivity|].
  destruct (updateArticle_id_comes_from_path (main.svc someRange) json.Decode
              (http.mkRequest sample.bodyA1 {["id" := "a2"]})
              (sample.store [sample.a2]) [] "a2" sample.a1)
    as (passed & Hcalls & _ & Hid & _).
  - vm_compute. reflexivity.
  - reflexivity.
  - exists passed. split; [exact Hcalls|exact Hid].
Defined.

(** ** More on the repository: overwriting, counting, composing *)

Section StoreFacts.
Implicit Types (repo : inMemoryRepo.t) (article : Article) (id : string).

Lemma withID_snoc id (l : list Article) article :
  withID id (l ++ [article])
  = (withID id l ++ if decide (ID article = id) then [article] else [])%list.
Proof.
  unfold withID. rewrite filter_app. by f_equal.
Qed.

Lemma insertAll_dom (l : list Article) repo :
  dom (inMemoryRepo.articles (insertAll l repo))
  = (list_to_set (ID <$> l) ∪ dom (inMemoryRepo.articles repo) : gset string).
Proof.
  revert repo. induction l as [|a l IH]; intros repo; simpl.
  - by rewrite (left_id_L ∅ (∪)).
  - rewrite IH. simpl. rewrite dom_insert_L.
    rewrite (assoc_L (∪)). f_equal. apply (comm_L (∪)).
Qed.

Lemma distinct_ids_size (ids : list string) :
  size (list_to_set ids : gset string) = length (remove_dups ids).
Proof.
  rewrite <- (size_list_to_set (C := gset string) (remove_dups ids))
    by apply NoDup_remove_dups.
  f_equal. apply set_eq. intros x.
  by rewrite !elem_of_list_to_set, elem_of_remove_dups.
Qed.

Lemma listing_length mapRange repo :
  inMemoryRepo.mapRange_visits_each_once mapRange →
  length (listing mapRange repo) = size (inMemoryRepo.articles repo).
Proof.
  intros Hrange. rewrite (listing_perm _ Hrange).
  by rewrite length_fmap, length_map_to_list.
Qed.
End StoreFacts.

(** X1.  [InsertArticle] never fails and stores the article whether or not
    its id was taken: [ArticleByID] for that id then returns the article just
    inserted, every other id answers as before, and inserting the same
    article again changes nothing. *)
Theorem InsertArticle_overwrites
    (repo : inMemoryRepo.t) (article : Article) :
  let repo' := (inMemoryRepo.InsertArticle article repo).2 in
  (inMemoryRepo.InsertArticle article repo).1 = None
  ∧ inMemoryRepo.ArticleByID (ID article) repo'
    = ((Some article, None), repo')
  ∧ (∀ id, id ≠ ID article →
       (inMemoryRepo.ArticleByID id repo').1
       = (inMemoryRepo.ArticleByID id repo).1)
  ∧ inMemoryRepo.InsertArticle article repo' = (None, repo').
Proof.
  intros repo'. subst repo'. simpl. split_and!.
  - done.
  - apply ArticleByID_found. simpl. apply lookup_insert_eq.
  - intros id Hne. unfold inMemoryRepo.ArticleByID. simpl.
    rewrite lookup_insert_ne by done.
    by destruct (inMemoryRepo.articles repo !! id).
  - unfold inMemoryRepo.InsertArticle. simpl. by rewrite insert_insert_eq.
Qed.

(** X2.  After any sequence of [InsertArticle] calls the last write wins: the
    article stored under an id is the last one of the sequence that carries
    the id, and an id that the sequence does not mention keeps what it
    had. *)
Theorem insertAll_last_write_wins
    (l : list Article) (repo : inMemoryRepo.t) (id : string) :
  inMemoryRepo.articles (insertAll l repo) !! id
  = match last (withID id l) with
    | Some a => Some a
    | None => inMemoryRepo.articles repo !! id
    end.
Proof.
  induction l as [|a l IH] using rev_ind; [done|].
  rewrite insertAll_snoc, withID_snoc. simpl.
  case_decide as Hid.
  - rewrite last_snoc. subst id. apply lookup_insert_eq.
  - rewrite app_nil_r. rewrite lookup_insert_ne by done. apply IH.
Qed.

(** X3.  After any sequence of service [AddArticle] calls the first write
    wins: an id that was stored before the sequence keeps its article, and
    any other id holds the first article of the sequence that carries it. *)
Theorem addAll_first_write_wins
    (mapRange : gmap string Article → list (string * Article))
    (l : list Article) (repo : inMemoryRepo.t) (id : string) :
  inMemoryRepo.articles (addAll mapRange l repo) !! id
  = match inMemoryRepo.articles repo !! id with
    | Some a => Some a
    | None => head (withID id l)
    end.
Proof.
  revert repo. induction l as [|a l IH]; intros repo.
  - simpl. by destruct (inMemoryRepo.articles repo !! id).
  - change (addAll mapRange (a :: l) repo)
      with (addAll mapRange l
              (@articleSvc.AddArticle _ (main.repo mapRange) a repo).2).
    rewrite IH. unfold withID. rewrite filter_cons.
    destruct (inMemoryRepo.articles repo !! ID a) as [old|] eqn:Hlk.
    + rewrite (AddArticle_stored mapRange _ _ _ Hlk). simpl.
      destruct (inMemoryRepo.articles repo !! id) as [b|] eqn:Hid; [done|].
      case_decide; [congruence|done].
    + rewrite (AddArticle_fresh mapRange _ _ Hlk). simpl.
      rewrite lookup_insert. case_decide as Hdec.
      * subst id. by rewrite Hlk.
      * by destruct (inMemoryRepo.articles repo !! id).
Qed.

(** X4.  Starting from the empty store, after any sequence of
    [InsertArticle] calls (ids may repeat) [AllArticles] returns as many
    articles as the sequence has distinct ids. *)
Theorem AllArticles_counts_distinct_ids
    (mapRange : gmap string Article → list (string * Article))
    (l : list Article) :
  inMemoryRepo.mapRange_visits_each_once mapRange →
  length (inMemoryRepo.AllArticles mapRange
            (insertAll l inMemoryRepo.new)).1.1
  = length (remove_dups (ID <$> l)).
Proof.
  intros Hrange.
  change (length (listing mapRange (insertAll l inMemoryRepo.new))
          = length (remove_dups (ID <$> l))).
  rewrite (listing_length _ _ Hrange), <- distinct_ids_size.
  rewrite <- (size_dom (D := gset string)), insertAll_dom. simpl.
  by rewrite dom_empty_L, (right_id_L ∅ (∪)).
Qed.

Lemma AllArticles_counts_distinct_ids_witness :
  length (inMemoryRepo.AllArticles someRange
            (insertAll [sample.a1; sample.a2; sample.a1'] inMemoryRepo.new)).1.1
  = 2.
Proof.
  apply (AllArticles_counts_distinct_ids someRange
           [sample.a1; sample.a2; sample.a1']).
  intros m. reflexivity.
Defined.

(** X5.  [UpdateArticle] never creates and never removes an entry: whether
    it succeeds or fails, the set of stored ids is the same after the call,
    and [AllArticles] returns as many articles as before. *)
Theorem UpdateArticle_keeps_ids
    (mapRange : gmap string Article → list (string * Article))
    (repo : inMemoryRepo.t) (article : Article) :
  inMemoryRepo.mapRange_visits_each_once mapRange →
  let repo' := (inMemoryRepo.UpdateArticle article repo).2 in
  (∀ id, is_Some (inMemoryRepo.articles repo' !! id)
         ↔ is_Some (inMemoryRepo.articles repo !! id))
  ∧ length (inMemoryRepo.AllArticles mapRange repo').1.1
    = length (inMemoryRepo.AllArticles mapRange repo).1.1.
Proof.
  intros Hrange repo'. subst repo'.
  pose proof (λ r, listing_length mapRange r Hrange) as Hlen.
  unfold listing in Hlen. rewrite !Hlen.
  unfold inMemoryRepo.UpdateArticle.
  destruct (inMemoryRepo.articles repo !! ID article) as [old|] eqn:Hlk;
    simpl; [|done].
  split.
  - intros id. rewrite lookup_insert. case_decide; [|done].
    subst id. rewrite Hlk. split; eauto.
  - apply map_size_insert_Some. eauto.
Qed.

Lemma UpdateArticle_keeps_ids_witness :
  length (inMemoryRepo.AllArticles someRange
            (inMemoryRepo.UpdateArticle sample.a1'
               (sample.store [sample.a1; sample.a2])).2).1.1
  = length (inMemoryRepo.AllArticles someRange
              (sample.store [sample.a1; sample.a2])).1.1.
Proof.
  apply (UpdateArticle_keeps_ids someRange
           (sample.store [sample.a1; sample.a2]) sample.a1').
  intros m. reflexivity.
Defined.

(** X6.  [DeleteArticle] is idempotent, and it removes at most the one entry
    it is asked to remove: deleting the same id a second time changes
    nothing, every entry under another id is kept, and [AllArticles] returns
    one article less than before when the id was stored and as many as before
    when it was not. *)
Theorem DeleteArticle_idempotent_and_counted
    (mapRange : gmap string Article → list (string * Article))
    (repo : inMemoryRepo.t) (id : string) :
  inMemoryRepo.mapRange_visits_each_once mapRange →
  let repo' := (inMemoryRepo.DeleteArticle id repo).2 in
  inMemoryRepo.DeleteArticle id repo' = (None, repo')
  ∧ (∀ id', id' ≠ id →
       inMemoryRepo.articles repo' !! id' = inMemoryRepo.articles repo !! id')
  ∧ length (inMemoryRepo.AllArticles mapRange repo').1.1
    = (length (inMemoryRepo.AllArticles mapRange repo).1.1
       - match inMemoryRepo.articles repo !! id with
         | Some _ => 1
         | None => 0
         end)%nat.
Proof.
  intros Hrange repo'. subst repo'.
  pose proof (λ r, listing_length mapRange r Hrange) as Hlen.
  unfold listing in Hlen. rewrite !Hlen. simpl. split_and!.
  - unfold inMemoryRepo.DeleteArticle. simpl. by rewrite delete_delete_eq.
  - intros id' Hne. by apply lookup_delete_ne.
  - rewrite map_size_delete.
    destruct (inMemoryRepo.articles repo !! id); simpl; lia.
Qed.

Lemma DeleteArticle_idempotent_and_counted_witness :
  length (inMemoryRepo.AllArticles someRange
            (inMemoryRepo.DeleteArticle "a1"
               (sample.store [sample.a1; sample.a2])).2).1.1
  = 1.
Proof.
  destruct (DeleteArticle_idempotent_and_counted someRange
              (sample.store [sample.a1; sample.a2]) "a1")
    as (_ & _ & Hcount).
  - intros m. reflexivity.
  - exact Hcount.
Defined.

(** X7.  Insert and delete compose as expected in both orders.  Deleting the
    id of an article that was just inserted under a free id gives back the
    store as it was; and after deleting an id the service's [AddArticle]
    accepts an article with that id, whatever was stored before, and stores
    it. *)
Theorem DeleteArticle_frees_the_id
    (mapRange : gmap string Article → list (string * Article))
    (repo : inMemoryRepo.t) (article : Article) :
  (inMemoryRepo.articles repo !! ID article = None →
     (inMemoryRepo.DeleteArticle (ID article)
        (inMemoryRepo.InsertArticle article repo).2).2 = repo)
  ∧ let deleted := (inMemoryRepo.DeleteArticle (ID article) repo).2 in
    let added :=
      @articleSvc.AddArticle _ (main.repo mapRange) article deleted in
    added.1 = None
    ∧ inMemoryRepo.articles added.2 !! ID article = Some article
    ∧ ∀ id, id ≠ ID article →
        inMemoryRepo.articles added.2 !! id
        = inMemoryRepo.articles repo !! id.
Proof.
  split.
  - intros Hfree. apply repo_eq. simpl. by apply delete_insert_id.
  - intros deleted added. subst added deleted.
    rewrite AddArticle_fresh by (simpl; apply lookup_delete_eq).
    simpl. split_and!.
    + done.
    + apply lookup_insert_eq.
    + intros id Hne. rewrite lookup_insert_ne by done.
      by apply lookup_delete_ne.
Qed.

Lemma DeleteArticle_frees_the_id_witness :
  inMemoryRepo.articles (sample.store [sample.a2]) !! ID sample.a1 = None
  ∧ (inMemoryRepo.DeleteArticle (ID sample.a1)
       (inMemoryRepo.InsertArticle sample.a1 (sample.store [sample.a2])).2).2
    = sample.store [sample.a2].
Proof.
  assert (inMemoryRepo.articles (sample.store [sample.a2]) !! ID sample.a1
          = None) as Hfree by (vm_compute; reflexivity).
  split; [exact Hfree|].
  destruct (DeleteArticle_frees_the_id someRange (sample.store [sample.a2])
              sample.a1) as [Hback _].
  exact (Hback Hfree).
Defined.

(** ** More on the service *)

(** X8.  On any implementation of the repository interface, the service's
    [AddArticle] treats every failure of the existence check as "absent":
    whenever [ArticleByID] returns an error -- not only
    [ErrArticleNotFound] -- or a nil article, the service goes on to
    [InsertArticle] on the state the check left and returns the result of
    that call; only a non-nil article with a nil error stops it, with the
    error "article already exists" and without an [InsertArticle]. *)
Theorem AddArticle_swallows_lookup_errors
    {R : Type} (repo : ArticlesRepo.t R) (article : Article) (r r' : R)
    (a : option Article) (err : option error) :
  @ArticlesRepo.ArticleByID _ repo (ID article) r = ((a, err), r') →
  (is_Some err ∨ a = None →
     @articleSvc.AddArticle _ repo article r
     = @ArticlesRepo.InsertArticle _ repo article r')
  ∧ (err = None → is_Some a →
     @articleSvc.AddArticle _ repo article r
     = (Some (errors.New "article already exists"), r')).
Proof.
  intros Hlookup. unfold articleSvc.AddArticle. rewrite Hlookup. split.
  - intros [[e ->]| ->]; [done|]. by destruct err.
  - intros -> [found ->]. done.
Qed.

Lemma AddArticle_swallows_lookup_errors_witness :
  @ArticlesRepo.ArticleByID _ (main.repo someRange) (ID sample.a1)
    inMemoryRepo.new
  = ((None, Some ErrArticleNotFound), inMemoryRepo.new)
  ∧ @articleSvc.AddArticle _ (main.repo someRange) sample.a1 inMemoryRepo.new
    = @ArticlesRepo.InsertArticle _ (main.repo someRange) sample.a1
        inMemoryRepo.new.
Proof.
  split; [reflexivity|].
  destruct (AddArticle_swallows_lookup_errors (main.repo someRange) sample.a1
              inMemoryRepo.new inMemoryRepo.new None
              (Some ErrArticleNotFound)) as [Hgo _].
  - reflexivity.
  - apply Hgo. left. by eexists.
Defined.

(** X9.  On any implementation of the repository interface, the service's
    [UpdateArticle], [DeleteArticle], [Article] and [Articles] are
    pass-throughs: each makes exactly one call on the repository -- the
    method of the same purpose, with the argument it was given -- and
    returns that call's result and error unchanged. *)
Theorem service_passes_through
    {R : Type} (repo : ArticlesRepo.t R) (r : R)
    (calls : list recordingRepo.call) (article : Article) (id : string) :
  let recorded := recordingRepo.mk r calls in
  let after (c : recordingRepo.call) (r' : R) :=
    recordingRepo.mk r' (calls ++ [c])%list in
  @articleSvc.UpdateArticle _ (@recordingRepo.repo _ repo) article recorded
  = ((@ArticlesRepo.UpdateArticle _ repo article r).1,
     after (recordingRepo.UpdateArticle article)
       (@ArticlesRepo.UpdateArticle _ repo article r).2)
  ∧ @articleSvc.DeleteArticle _ (@recordingRepo.repo _ repo) id recorded
    = ((@ArticlesRepo.DeleteArticle _ repo id r).1,
       after (recordingRepo.DeleteArticle id)
         (@ArticlesRepo.DeleteArticle _ repo id r).2)
  ∧ @articleSvc.Article _ (@recordingRepo.repo _ repo) id recorded
    = ((@ArticlesRepo.ArticleByID _ repo id r).1,
       after (recordingRepo.ArticleByID id)
         (@ArticlesRepo.ArticleByID _ repo id r).2)
  ∧ @articleSvc.Articles _ (@recordingRepo.repo _ repo) recorded
    = ((@ArticlesRepo.AllArticles _ repo r).1,
       after recordingRepo.AllArticles
         (@ArticlesRepo.AllArticles _ repo r).2).
Proof.
  intros recorded after. subst recorded after.
  unfold articleSvc.UpdateArticle, articleSvc.DeleteArticle,
    articleSvc.Article, articleSvc.Articles.
  cbn. unfold recordingRepo.forward. cbn.
  destruct (@ArticlesRepo.UpdateArticle _ repo article r),
    (@ArticlesRepo.DeleteArticle _ repo id r),
    (@ArticlesRepo.ArticleByID _ repo id r),
    (@ArticlesRepo.AllArticles _ repo r).
  done.
Qed.

(** ** More on the transport *)



(** X11.  End to end on the in-memory store, for a body that decodes to an
    article [a]: when the id of [a] is free, [PUT /articles] answers 200
    "ok" and the store afterwards holds [a] under its id; when the id is
    taken it answers 500 with the body "article already exists", logs that
    text and leaves the store as it was. *)
Theorem addArticle_end_to_end
    (mapRange : gmap string Article → list (string * Article))
    {B : Type} (Decode : B → Article → Article * option error)
    (r : http.Request B) (repo : inMemoryRepo.t) (a : Article) :
  Decode (http.Body r) zeroArticle = (a, None) →
  let σ' :=
    (@articlesHttpTransport.addArticle _ (main.svc mapRange) _ Decode r
       (articlesHttpTransport.serving repo)).2 in
  match inMemoryRepo.articles repo !! ID a with
  | None =>
      http.status (articlesHttpTransport.w σ') = http.StatusOK
      ∧ http.body (articlesHttpTransport.w σ') = "ok"
      ∧ articlesHttpTransport.logged σ' = []
      ∧ inMemoryRepo.articles (articlesHttpTransport.svc σ') !! ID a = Some a
      ∧ articlesHttpTransport.svc σ'
        = (inMemoryRepo.InsertArticle a repo).2
  | Some stored =>
      http.status (articlesHttpTransport.w σ')
      = http.StatusInternalServerError
      ∧ http.body (articlesHttpTransport.w σ') = "article already exists"
      ∧ articlesHttpTransport.logged σ' = ["article already exists"]
      ∧ inMemoryRepo.articles (articlesHttpTransport.svc σ') !! ID a
        = Some stored
      ∧ articlesHttpTransport.svc σ' = repo
  end.
Proof.
  intros Hdec σ'. subst σ'.
  unfold articlesHttpTransport.addArticle. rewrite Hdec. run_handler.
  unfold articleSvc.AddArticle. cbn. unfold inMemoryRepo.ArticleByID.
  destruct (inMemoryRepo.articles repo !! ID a) as [stored|] eqn:Hlk; cbn.
  - by rewrite Hlk.
  - split_and!; try done. apply lookup_insert_eq.
Qed.

Lemma addArticle_end_to_end_witness :
  json.Decode sample.bodyA1 zeroArticle = (sample.a1, None)
  ∧ articlesHttpTransport.svc
      (@articlesHttpTransport.addArticle _ (main.svc someRange) _ json.Decode
         (http.mkRequest sample.bodyA1 ∅)
         (articlesHttpTransport.serving (sample.store [sample.a2]))).2
    = sample.store [sample.a2; sample.a1].
Proof.
  split; [reflexivity|].
  pose proof (addArticle_end_to_end someRange json.Decode
                (http.mkRequest sample.bodyA1 ∅) (sample.store [sample.a2])
                sample.a1 eq_refl) as Hrun.
  exact (proj2 (proj2 (proj2 (proj2 Hrun)))).
Defined.



(** X13.  End to end on the in-memory store, for a body that decodes to an
    article [a] and a route id [id]: when no article is stored under [id],
    [PUT /articles/{id}] answers 500 with the body "article not found" and
    leaves the store as it was (it does not create the article); when one is
    stored it answers 200 "ok" and the store afterwards holds under [id] the
    decoded article with its id replaced by [id], every other entry being
    left alone. *)
Theorem updateArticle_end_to_end
    (mapRange : gmap string Article → list (string * Article))
    {B : Type} (Decode : B → Article → Article * option error)
    (r : http.Request B) (repo : inMemoryRepo.t) (id : string) (a : Article) :
  http.Vars r !! "id" = Some id →
  Decode (http.Body r) zeroArticle = (a, None) →
  let σ' :=
    (@articlesHttpTransport.updateArticle _ (main.svc mapRange) _ Decode r
       (articlesHttpTransport.serving repo)).2 in
  match inMemoryRepo.articles repo !! id with
  | None =>
      http.status (articlesHttpTransport.w σ')
      = http.StatusInternalServerError
      ∧ http.body (articlesHttpTransport.w σ') = "article not found"
      ∧ articlesHttpTransport.svc σ' = repo
  | Some _ =>
      http.status (articlesHttpTransport.w σ') = http.StatusOK
      ∧ http.body (articlesHttpTransport.w σ') = "ok"
      ∧ inMemoryRepo.articles (articlesHttpTransport.svc σ') !! id
        = Some (setID id a)
      ∧ ∀ id', id' ≠ id →
          inMemoryRepo.articles (articlesHttpTransport.svc σ') !! id'
          = inMemoryRepo.articles repo !! id'
  end.
Proof.
  intros Hid Hdec σ'. subst σ'.
  unfold articlesHttpTransport.updateArticle. rewrite Hdec, Hid. run_handler.
  unfold articleSvc.UpdateArticle. cbn. unfold inMemoryRepo.UpdateArticle.
  cbn.
  destruct (inMemoryRepo.articles repo !! id) as [stored|] eqn:Hlk; cbn.
  - split_and!; try done.
    + apply lookup_insert_eq.
    + intros id' Hne. by apply lookup_insert_ne.
  - done.
Qed.

Lemma updateArticle_end_to_end_witness :
  json.Decode sample.bodyA1 zeroArticle = (sample.a1, None)
  ∧ inMemoryRepo.articles
      (articlesHttpTransport.svc
         (@articlesHttpTransport.updateArticle _ (main.svc someRange) _
            json.Decode (http.mkRequest sample.bodyA1 {["id" := "a2"]})
            (articlesHttpTransport.serving (sample.store [sample.a2]))).2)
      !! "a2"
    = Some (setID "a2" sample.a1).
Proof.
  split; [reflexivity|].
  assert (({["id" := "a2"]} : gmap string string) !! "id" = Some "a2")
    as Hid by (vm_compute; reflexivity).
  pose proof (updateArticle_end_to_end someRange json.Decode
                (http.mkRequest sample.bodyA1 {["id" := "a2"]})
                (sample.store [sample.a2]) "a2" sample.a1 Hid eq_refl)
    as Hrun.
  exact (proj1 (proj2 (proj2 Hrun))).
Defined.






(** X17.  The handler routed as [DELETE /articles/{id}] deletes nothing: it
    makes no call on the service, so the store after the request is the store
    before it and an article stored under the requested id is still returned
    by the service afterwards; and it makes no call on the response writer,
    so the answer is 200 with an empty body. *)
Theorem deleteArticle_deletes_nothing
    (mapRange : gmap string Article → list (string * Article))
    {B : Type} (r : http.Request B) (repo : inMemoryRepo.t)
    (calls : list recordingSvc.call) (id : string) (stored : Article) :
  inMemoryRepo.articles repo !! id = Some stored →
  let σ' :=
    (@articlesHttpTransport.deleteArticle _ B r
       (articlesHttpTransport.serving (recordingSvc.mk repo calls))).2 in
  recordingSvc.calls (articlesHttpTransport.svc σ') = calls
  ∧ recordingSvc.inner (articlesHttpTransport.svc σ') = repo
  ∧ (@articleSvc.Article _ (main.repo mapRange) id
       (recordingSvc.inner (articlesHttpTransport.svc σ'))).1
    = (Some stored, None)
  ∧ articlesHttpTransport.w σ' = []
  ∧ http.status (articlesHttpTransport.w σ') = http.StatusOK
  ∧ http.body (articlesHttpTransport.w σ') = "".
Proof.
  intros Hlk σ'. subst σ'. cbn. split_and!; try done.
  unfold articleSvc.Article. cbn. by rewrite (ArticleByID_found _ _ _ Hlk).
Qed.

Lemma deleteArticle_deletes_nothing_witness :
  inMemoryRepo.articles (sample.store [sample.a1]) !! "a1" = Some sample.a1
  ∧ (@articleSvc.Article _ (main.repo someRange) "a1"
       (recordingSvc.inner
          (articlesHttpTransport.svc
             (@articlesHttpTransport.deleteArticle _ json.body
                (http.mkRequest sample.bodyNotJSON {["id" := "a1"]})
                (articlesHttpTransport.serving
                   (recordingSvc.mk (sample.store [sample.a1]) []))).2))).1
    = (Some sample.a1, None).
Proof.
  assert (inMemoryRepo.articles (sample.store [sample.a1]) !! "a1"
          = Some sample.a1) as Hin by (vm_compute; reflexivity).
  split; [exact Hin|].
  destruct (deleteArticle_deletes_nothing someRange
              (http.mkRequest sample.bodyNotJSON {["id" := "a1"]})
              (sample.store [sample.a1]) [] "a1" sample.a1 Hin)
    as (_ & _ & Hstill & _).
  exact Hstill.
Defined.

(** ** printArticles *)

(** X18.  [printArticles] ends in [log.Fatalln] exactly when the service's
    [Articles] returns an error, and otherwise prints the list the service
    returned.  On the in-memory store it therefore never exits the process:
    it prints a list that is a permutation of the stored articles and leaves
    the store as it was. *)
Theorem printArticles_prints_or_exits
    {S : Type} (inner : ArticlesService.t S)
    (Sprintf : list Article → string) (s : S)
    (mapRange : gmap string Article → list (string * Article))
    (repo : inMemoryRepo.t) :
  inMemoryRepo.mapRange_visits_each_once mapRange →
  ((∃ line, (@printArticles _ inner Sprintf s).1 = Fatalln line)
   ↔ is_Some (@ArticlesService.Articles _ inner s).1.2)
  ∧ ((@ArticlesService.Articles _ inner s).1.2 = None →
     (@printArticles _ inner Sprintf s).1
     = Printf (Sprintf (@ArticlesService.Articles _ inner s).1.1))
  ∧ ∃ l : list Article,
      @printArticles _ (main.svc mapRange) Sprintf repo
      = (Printf (Sprintf l), repo)
      ∧ l ≡ₚ (map_to_list (inMemoryRepo.articles repo)).*2.
Proof.
  intros Hrange. unfold printArticles. split_and!.
  - destruct (@ArticlesService.Articles _ inner s) as [[l [err|]] s']; cbn.
    + split; [by eauto|]. intros _. by eexists.
    + split; [by intros [line ?]|]. by intros [? ?].
  - destruct (@ArticlesService.Articles _ inner s) as [[l [err|]] s']; cbn;
      by intros ?.
  - cbn. unfold articleSvc.Articles. cbn. unfold inMemoryRepo.AllArticles.
    rewrite ?range_loop. cbn.
    eexists. split; [done|]. by rewrite (Hrange _).
Qed.

Lemma printArticles_prints_or_exits_witness :
  ∃ l : list Article,
    @printArticles _ (main.svc someRange) (λ _, "articles")
      (sample.store [sample.a1])
    = (Printf "articles", sample.store [sample.a1])
    ∧ l ≡ₚ (map_to_list
              (inMemoryRepo.articles (sample.store [sample.a1]))).*2.
Proof.
  destruct (printArticles_prints_or_exits (main.svc someRange)
              (λ _, "articles") (sample.store [sample.a1]) someRange
              (sample.store [sample.a1])) as (_ & _ & l & Hprint & Hperm).
  - intros m. reflexivity.
  - exists l. split; [exact Hprint|exact Hperm].
Defined.

(** ** The fresh store, listing, and what the handlers preserve *)

(** X19.  On the store that [newInMemoryRepo] returns every [ArticleByID]
    and every [UpdateArticle] fails with [ErrArticleNotFound], without
    changing the store, [AllArticles] returns no article and no error, and
    the service's [AddArticle] accepts any article. *)
Theorem newInMemoryRepo_is_empty
    (mapRange : gmap string Article → list (string * Article))
    (article : Article) (id : string) :
  inMemoryRepo.mapRange_visits_each_once mapRange →
  inMemoryRepo.ArticleByID id inMemoryRepo.new
  = ((None, Some ErrArticleNotFound), inMemoryRepo.new)
  ∧ inMemoryRepo.UpdateArticle article inMemoryRepo.new
    = (Some ErrArticleNotFound, inMemoryRepo.new)
  ∧ inMemoryRepo.AllArticles mapRange inMemoryRepo.new
    = (([], None), inMemoryRepo.new)
  ∧ (@articleSvc.AddArticle _ (main.repo mapRange) article
       inMemoryRepo.new).1 = None.
Proof.
  intros Hrange. split_and!.
  - apply ArticleByID_missing. apply lookup_empty.
  - unfold inMemoryRepo.UpdateArticle. simpl. by rewrite lookup_empty.
  - rewrite AllArticles_values. simpl.
    pose proof (Hrange ∅) as Hperm. rewrite map_to_list_empty in Hperm.
    apply Permutation_nil_r in Hperm. by rewrite Hperm.
  - rewrite AddArticle_fresh by apply lookup_empty. done.
Qed.

Lemma newInMemoryRepo_is_empty_witness :
  inMemoryRepo.AllArticles someRange inMemoryRepo.new
  = (([], None), inMemoryRepo.new).
Proof.
  destruct (newInMemoryRepo_is_empty someRange sample.a1 "a1")
    as (_ & _ & Hall & _).
  - intros m. reflexivity.
  - exact Hall.
Defined.

(** X20.  [AllArticles] never fails and never changes the store; an article
    is in its result exactly when it is stored under some key; and two calls
    on the same store return the same articles up to order, whatever order
    the map is iterated in each time. *)
Theorem AllArticles_reads_the_store
    (mapRange mapRange' : gmap string Article → list (string * Article))
    (repo : inMemoryRepo.t) :
  inMemoryRepo.mapRange_visits_each_once mapRange →
  inMemoryRepo.mapRange_visits_each_once mapRange' →
  (inMemoryRepo.AllArticles mapRange repo).1.2 = None
  ∧ (inMemoryRepo.AllArticles mapRange repo).2 = repo
  ∧ (∀ a : Article,
      a ∈ (inMemoryRepo.AllArticles mapRange repo).1.1
      ↔ ∃ k, inMemoryRepo.articles repo !! k = Some a)
  ∧ (inMemoryRepo.AllArticles mapRange repo).1.1
    ≡ₚ (inMemoryRepo.AllArticles mapRange' repo).1.1.
Proof.
  intros Hrange Hrange'. split_and!; try done.
  - intros a. by apply AllArticles_elem.
  - rewrite !AllArticles_values. simpl.
    by rewrite (Hrange _), (Hrange' _).
Qed.

Lemma AllArticles_reads_the_store_witness :
  (inMemoryRepo.AllArticles someRange
     (sample.store [sample.a1; sample.a2])).1.1
  ≡ₚ (inMemoryRepo.AllArticles (λ m, reverse (map_to_list m))
        (sample.store [sample.a1; sample.a2])).1.1.
Proof.
  destruct (AllArticles_reads_the_store someRange
              (λ m, reverse (map_to_list m))
              (sample.store [sample.a1; sample.a2]))
    as (_ & _ & _ & Hperm).
  - intros m. reflexivity.
  - intros m. apply reverse_Permutation.
  - exact Hperm.
Defined.

(** X21.  No request can break the keying of the store.  Whatever the
    decoder makes of the body -- also when it fails -- and whatever the route
    variables are, each of the five handlers takes a store that is reachable
    (so keyed by id) to a store that is reachable: [addArticle] stores under
    the id of the article it was left with, [updateArticle] under the id it
    copied from the route, and the other three leave the store alone. *)
Theorem handlers_keep_store_reachable
    (mapRange : gmap string Article → list (string * Article))
    {B : Type} (Decode : B → Article → Article * option error)
    (Marshal : list Article → error + string)
    (r : http.Request B) (repo : inMemoryRepo.t) :
  reachable repo →
  let after (h : articlesHttpTransport.handler unit) :=
    articlesHttpTransport.svc (h (articlesHttpTransport.serving repo)).2 in
  reachable
    (after (@articlesHttpTransport.addArticle _ (main.svc mapRange) _ Decode r))
  ∧ reachable
      (after (@articlesHttpTransport.updateArticle _ (main.svc mapRange) _
                Decode r))
  ∧ after (@articlesHttpTransport.articles _ (main.svc mapRange) _ Marshal r)
    = repo
  ∧ after (@articlesHttpTransport.articleByID _ _ r) = repo
  ∧ after (@articlesHttpTransport.deleteArticle _ _ r) = repo.
Proof.
  intros Hreach after. subst after. cbn beta. split_and!.
  - unfold articlesHttpTransport.addArticle.
    destruct (Decode (http.Body r) zeroArticle) as [a e].
    assert (reachable
              (@articleSvc.AddArticle _ (main.repo mapRange) a repo).2)
      as Hadd.
    { destruct (inMemoryRepo.articles repo !! ID a) as [old|] eqn:Hlk.
      - by rewrite (AddArticle_stored mapRange _ _ _ Hlk).
      - rewrite (AddArticle_fresh mapRange _ _ Hlk).
        by apply reachable_insert. }
    destruct e as [e|]; run_handler;
      by destruct (@articleSvc.AddArticle _ (main.repo mapRange) a repo)
        as [[err|] repo'].
  - unfold articlesHttpTransport.updateArticle.
    destruct (Decode (http.Body r) zeroArticle) as [a e].
    set (passed := setID (default "" (http.Vars r !! "id")) a).
    pose proof (reachable_update repo passed Hreach) as Hupd.
    destruct e as [e|]; run_handler; unfold articleSvc.UpdateArticle; cbn;
      fold passed;
      by destruct (inMemoryRepo.UpdateArticle passed repo) as [[err|] repo'].
  - unfold articlesHttpTransport.articles. run_handler.
    unfold articleSvc.Articles. cbn. unfold inMemoryRepo.AllArticles. cbn.
    unfold articlesHttpTransport.Encode.
    by destruct (Marshal _); run_handler.
  - done.
  - done.
Qed.

Lemma handlers_keep_store_reachable_witness :
  reachable (sample.store [sample.a1])
  ∧ reachable
      (articlesHttpTransport.svc
         (@articlesHttpTransport.updateArticle _ (main.svc someRange) _
            json.Decode (http.mkRequest sample.bodyNumericTitle {["id" := "a1"]})
            (articlesHttpTransport.serving (sample.store [sample.a1]))).2).
Proof.
  assert (reachable (sample.store [sample.a1])) as Hreach.
  { apply (reachable_insert _ sample.a1), reachable_new. }
  split; [exact Hreach|].
  destruct (handlers_keep_store_reachable someRange json.Decode
              (λ _, inr "[]")
              (http.mkRequest sample.bodyNumericTitle {["id" := "a1"]})
              (sample.store [sample.a1]) Hreach) as (_ & Hupd & _).
  exact Hupd.
Defined.
